(** * Motion model of the tilt-controlled robot simulator

    A shallow embedding of [simulator_server.py]: the command endpoint
    [receive_command] and the body of the [while running] loop of
    [simulate] (target velocity, velocity smoothing, integration,
    boundary bounce and the trail).

    Numbers.  The program mixes Python ints ([WIDTH], [ROBOT_SIZE],
    [robot_speed], the initial [robot_pos]) and floats ([0.6], [0.92],
    [0.1], [0.7], [0.5]).  Every number is embedded as an exact rational
    of [Q], a decimal literal [0.92] being the fraction [92/100]; the
    rounding of binary floating point is not modelled.  Equality of
    computed numbers is therefore [Qeq] ([==]); Leibniz equality is used
    where the program stores a constant or leaves a value untouched. *)

From Stdlib Require Import ZArith QArith Qabs Qround Lqa Lia List String Bool.
Import ListNotations.

Local Open Scope Q_scope.

(** ** Configuration (module level constants of the script) *)

Definition WIDTH : Z := 800.
Definition HEIGHT : Z := 600.
Definition ROBOT_SIZE : Z := 40.
Definition robot_speed : Z := 4.

(** Locals of [simulate] that are never reassigned. *)
Definition acceleration : Q := 0.6.
Definition max_speed : Q := inject_Z robot_speed.
Definition friction : Q := 0.92.
Definition max_trail : nat := 150.

(** ** Python built-ins used by the loop

    [min(a, b)] and [max(a, b)] return their first argument unless the
    second is strictly smaller (resp. larger); [abs] negates negatives. *)

Definition py_min (a b : Q) : Q := if Qlt_le_dec b a then b else a.
Definition py_max (a b : Q) : Q := if Qlt_le_dec a b then b else a.
Definition py_abs (x : Q) : Q := if Qlt_le_dec x 0 then - x else x.

(** ** Command store and ingestion endpoint *)

(** [request.args.get(key, default)]: the first value bound to [key]. *)
Fixpoint args_get (args : list (string * string)) (key default : string)
  : string :=
  match args with
  | [] => default
  | (k, v) :: rest => if String.eqb k key then v else args_get rest key default
  end.

Record Response := mkResponse { status : string; command : string }.

(** [receive_command]: returns the new value of the global
    [robot_command] and the JSON body (the timestamp is left out). *)
Definition receive_command (args : list (string * string)) : string * Response :=
  let cmd := args_get args "cmd" "S" in
  (cmd, mkResponse "success" cmd).

(** The five tokens the status page documents. *)
Definition valid_command (c : string) : Prop :=
  c = "F"%string \/ c = "B"%string \/ c = "L"%string \/ c = "R"%string
  \/ c = "S"%string.

(** ** Simulation state

    [robot_velocity] and [robot_pos] are two-element lists indexed by
    [0] and [1]; they are embedded as pairs.  [trail_points] only ever
    receives fresh copies ([old_pos.copy()]), so no aliasing arises. *)

Record SimState := mkState {
  robot_velocity : Q * Q;
  robot_pos : Q * Q;
  trail_points : list (Q * Q)
}.

Definition init_state : SimState :=
  mkState (0, 0) (inject_Z (WIDTH / 2), inject_Z (HEIGHT / 2)) [].

(** The loop index [i] of [for i in range(2)]. *)
Inductive axis := AxisX | AxisY.

Definition coord (i : axis) (p : Q * Q) : Q :=
  match i with AxisX => fst p | AxisY => snd p end.

(** ** One iteration of the loop *)

(** "Calculate target velocity based on command". *)
Definition target_vel (current_cmd : string) : Q * Q :=
  if String.eqb current_cmd "F" then (0, - max_speed)
  else if String.eqb current_cmd "B" then (0, max_speed)
  else if String.eqb current_cmd "L" then (- max_speed, 0)
  else if String.eqb current_cmd "R" then (max_speed, 0)
  else (0, 0).

(** "Accelerate towards target". *)
Definition accelerate (target v : Q) : Q :=
  if Qlt_le_dec v target then py_min target (v + acceleration)
  else if Qlt_le_dec target v then py_max target (v - acceleration)
  else v.

(** "Apply friction when no input". *)
Definition apply_friction (v : Q) : Q :=
  let v' := v * friction in
  if Qlt_le_dec (py_abs v') 0.1 then 0 else v'.

(** Body of "Smooth velocity changes" for one index. *)
Definition update_velocity (target v : Q) : Q :=
  if Qeq_dec target 0 then apply_friction v else accelerate target v.

(** Arena edges for the robot centre. *)
Definition edge_lo (i : axis) : Q := inject_Z (ROBOT_SIZE / 2).
Definition edge_hi (i : axis) : Q :=
  match i with
  | AxisX => inject_Z (WIDTH - ROBOT_SIZE / 2)
  | AxisY => inject_Z (HEIGHT - ROBOT_SIZE / 2)
  end.

(** "Boundary collision with bounce" for one index: new position and
    new velocity. *)
Definition bounce (i : axis) (p v : Q) : Q * Q :=
  if Qle_bool p (edge_lo i) then (edge_lo i, py_abs v * 0.7)
  else if Qle_bool (edge_hi i) p then (edge_hi i, - py_abs v * 0.7)
  else (p, v).

(** The test of "Add to trail". *)
Definition displaced (new_pos old_pos : Q * Q) : bool :=
  negb (Qle_bool (py_abs (fst new_pos - fst old_pos)) 0.5)
  || negb (Qle_bool (py_abs (snd new_pos - snd old_pos)) 0.5).

(** "Add to trail": [append] then [pop(0)] when over [max_trail]. *)
Definition add_to_trail (new_pos old_pos : Q * Q) (trail : list (Q * Q))
  : list (Q * Q) :=
  if displaced new_pos old_pos then
    let trail' := trail ++ [old_pos] in
    if (max_trail <? List.length trail')%nat then tl trail' else trail'
  else trail.

(** Velocity and integrated position of index [i] before the bounce. *)
Definition smoothed (i : axis) (current_cmd : string) (s : SimState) : Q :=
  update_velocity (coord i (target_vel current_cmd))
                  (coord i (robot_velocity s)).

Definition integrated (i : axis) (current_cmd : string) (s : SimState) : Q :=
  coord i (robot_pos s) + smoothed i current_cmd s.

(** Does index [i] take one of the two bounce branches this tick? *)
Definition collides (i : axis) (current_cmd : string) (s : SimState) : bool :=
  Qle_bool (integrated i current_cmd s) (edge_lo i)
  || Qle_bool (edge_hi i) (integrated i current_cmd s).

(** The physics and trail part of one pass through [while running],
    for the command read under the lock. *)
Definition tick (current_cmd : string) (s : SimState) : SimState :=
  let old_pos := robot_pos s in
  let bx := bounce AxisX (integrated AxisX current_cmd s)
                         (smoothed AxisX current_cmd s) in
  let by' := bounce AxisY (integrated AxisY current_cmd s)
                          (smoothed AxisY current_cmd s) in
  let new_pos := (fst bx, fst by') in
  mkState (snd bx, snd by') new_pos
          (add_to_trail new_pos old_pos (trail_points s)).

(** [n] passes under the same command. *)
Definition run (current_cmd : string) (n : nat) (s : SimState) : SimState :=
  Nat.iter n (tick current_cmd) s.

(** States the loop can be in: [robot_command] may hold any string. *)
Inductive reachable : SimState -> Prop :=
| reach_init : reachable init_state
| reach_tick : forall cmd s, reachable s -> reachable (tick cmd s).

Definition vel (i : axis) (s : SimState) : Q := coord i (robot_velocity s).
Definition pos (i : axis) (s : SimState) : Q := coord i (robot_pos s).

(** ** Auxiliary definitions for the statements *)

(** [geom r k] is [r] to the power [k]. *)
Fixpoint geom (r : Q) (k : nat) : Q :=
  match k with
  | O => 1
  | S k' => r * geom r k'
  end.

(** [free_for i cmd n s]: none of the next [n] ticks bounces on [i]. *)
Fixpoint free_for (i : axis) (cmd : string) (n : nat) (s : SimState) : bool :=
  match n with
  | O => true
  | S n' => negb (collides i cmd s) && free_for i cmd n' (tick cmd s)
  end.

(** Sum of the velocities of index [i] at the end of ticks [1..n]. *)
Fixpoint vel_sum (i : axis) (cmd : string) (n : nat) (s : SimState) : Q :=
  match n with
  | O => 0
  | S n' => vel_sum i cmd n' s + vel i (run cmd n s)
  end.

(** The state after ten ticks of Forward from the initial state. *)
Definition after_forward : SimState := run "F" 10 init_state.

(** A robot moving right at full speed two units before the far edge,
    and one moving up at full speed three units above the near edge. *)
Definition near_right_wall : SimState := mkState (4, 0) (778, 300) [].
Definition near_top_wall : SimState := mkState (0, -4) (400, 23) [].

(** The robot one tick before it reaches the top wall under Forward. *)
Definition at_top_wall : SimState := run "F" 72 init_state.

(** One tick of Right from the start; and Right, Stop, Stop: the robot
    is slowing down and its last step was longer than 0.5. *)
Definition one_right : SimState := tick "R" init_state.
Definition slowing : SimState := tick "S" (tick "S" (tick "R" init_state)).

(** A state whose trail is at capacity. *)
Definition full_trail : SimState :=
  mkState (0, 0) (400, 300) (repeat (400, 300) max_trail).

(** Pointwise numeric equality of trails. *)
Definition point_eqb (p q : Q * Q) : bool :=
  Qeq_bool (fst p) (fst q) && Qeq_bool (snd p) (snd q).

Fixpoint trail_eqb (a b : list (Q * Q)) : bool :=
  match a, b with
  | [], [] => true
  | p :: a', q :: b' => point_eqb p q && trail_eqb a' b'
  | _, _ => false
  end.

(** The Trail Buffer as the specification words it (section 4.3):
    [record(position)] appends [position] only if its distance from the
    previously recorded point exceeds 0.5, then evicts the oldest entry
    when over capacity.  The distance is Euclidean, compared through its
    square; with nothing recorded yet the point is appended. *)
Definition spec_far (p q : Q * Q) : bool :=
  negb (Qle_bool ((fst p - fst q) * (fst p - fst q)
                  + (snd p - snd q) * (snd p - snd q)) (0.5 * 0.5)).

Definition spec_record (position : Q * Q) (trail : list (Q * Q))
  : list (Q * Q) :=
  let appended :=
    let trail' := trail ++ [position] in
    if (max_trail <? List.length trail')%nat then tl trail' else trail' in
  match rev trail with
  | [] => appended
  | previous :: _ => if spec_far position previous then appended else trail
  end.

(** The recording rule as the specification states it, for one tick. *)
Definition records_new_position (cmd : string) (s : SimState) : Prop :=
  trail_eqb (trail_points (tick cmd s))
            (spec_record (robot_pos (tick cmd s)) (trail_points s)) = true.

(** ** Input handling of the loop *)

(** The key codes the loop tests; pygame's [K_w], [K_s], [K_a], [K_d]
    and [K_SPACE] are the ASCII codes of the characters. *)
Definition K_w : Z := 119.
Definition K_s : Z := 115.
Definition K_a : Z := 97.
Definition K_d : Z := 100.
Definition K_SPACE : Z := 32.

(** What [pygame.event.get()] yields, as far as the loop looks at it:
    [OTHER] stands for every event type that is neither [QUIT] nor
    [KEYDOWN]. *)
Inductive event :=
| QUIT
| KEYDOWN (key : Z)
| OTHER.

(** The [if]/[elif] chain on [event.key], run under [command_lock]: the
    new value of [robot_command]. *)
Definition key_command (key : Z) (robot_command : string) : string :=
  if (key =? K_w)%Z then "F"
  else if (key =? K_s)%Z then "B"
  else if (key =? K_a)%Z then "L"
  else if (key =? K_d)%Z then "R"
  else if (key =? K_SPACE)%Z then "S"
  else robot_command.

(** Whatever touches [running] or [robot_command] between two reads of
    the command by the loop: an event drained by the loop, or a request
    served by the Flask thread.  [command_lock] makes each write atomic,
    so an execution is a sequence of them; a request served after the
    loop has read the command counts with the next pass. *)
Inductive input :=
| Event (e : event)
| Request (args : list (string * string)).

(** Effect of one input on [(running, robot_command)]. *)
Definition apply_input (x : input) (st : bool * string) : bool * string :=
  match x with
  | Event QUIT => (false, snd st)
  | Event (KEYDOWN key) => (fst st, key_command key (snd st))
  | Event OTHER => st
  | Request args => (fst st, fst (receive_command args))
  end.

Definition apply_inputs (inputs : list input) (st : bool * string)
  : bool * string :=
  fold_left (fun acc x => apply_input x acc) inputs st.

(** The variables that live across passes of [while running]. *)
Record LoopState := mkLoop {
  running : bool;
  robot_command : string;
  sim_state : SimState
}.

Definition init_loop : LoopState := mkLoop true "S" init_state.

(** One pass through the body of [while running]: the inputs, the read
    of the command under the lock, then the physics and the trail. *)
Definition frame (inputs : list input) (st : LoopState) : LoopState :=
  let rc := apply_inputs inputs (running st, robot_command st) in
  mkLoop (fst rc) (snd rc) (tick (snd rc) (sim_state st)).

(** [simulate]: the loop, fed with the inputs of each pass; [running] is
    tested at the top of every pass. *)
Fixpoint simulate (frames : list (list input)) (st : LoopState) : LoopState :=
  match frames with
  | [] => st
  | inputs :: rest =>
      if running st then simulate rest (frame inputs st) else st
  end.

(** What an input writes into [robot_command], if anything. *)
Definition written (x : input) : option string :=
  match x with
  | Request args => Some (fst (receive_command args))
  | Event (KEYDOWN key) =>
      if (key =? K_w)%Z || (key =? K_s)%Z || (key =? K_a)%Z
         || (key =? K_d)%Z || (key =? K_SPACE)%Z
      then Some (key_command key "S") else None
  | Event _ => None
  end.

(** The last write of a sequence of inputs. *)
Fixpoint last_written (inputs : list input) : option string :=
  match inputs with
  | [] => None
  | x :: rest =>
      match last_written rest with
      | Some c => Some c
      | None => written x
      end
  end.

Definition is_quit (x : input) : bool :=
  match x with Event QUIT => true | _ => false end.

Definition is_request (x : input) : bool :=
  match x with Request _ => true | _ => false end.

(** ** Drawing *)

(** [int(x)] on a float: truncation towards zero. *)
Definition py_int (x : Q) : Z := Z.quot (Qnum x) (Z.pos (Qden x)).

(** "Draw trail": radius and green intensity of the [i]-th of [len]
    trail points. *)
Definition trail_dot (i len : nat) : Z * Z :=
  let alpha_factor := inject_Z (Z.of_nat i + 1) / inject_Z (Z.of_nat len) in
  let size := Z.max 1 (py_int (inject_Z ROBOT_SIZE * alpha_factor * 0.3)) in
  let color_intensity := py_int (100 * alpha_factor) in
  (size, color_intensity).

(** "Calculate robot color based on speed", from [speed_magnitude] (a
    square root, taken here as given). *)
Definition robot_color (speed_magnitude : Q) : Z * Z * Z :=
  let speed_ratio := py_min 1 (speed_magnitude / max_speed) in
  (py_int (speed_ratio * 255), py_int ((1 - speed_ratio) * 255), 50%Z).

(** "Draw robot": left, top, width and height of [robot_rect]. *)
Definition robot_rect (s : SimState) : Z * Z * Z * Z :=
  (py_int (fst (robot_pos s) - inject_Z (ROBOT_SIZE / 2)),
   py_int (snd (robot_pos s) - inject_Z (ROBOT_SIZE / 2)),
   ROBOT_SIZE, ROBOT_SIZE).

(** A point of the arena, edges included. *)
Definition in_arena (p : Q * Q) : Prop :=
  (edge_lo AxisX <= fst p <= edge_hi AxisX) /\
  (edge_lo AxisY <= snd p <= edge_hi AxisY).

(** * Properties *)

(** ** Constants and comparisons *)

Lemma max_speed_val : max_speed = 4.
Proof. reflexivity. Qed.

Lemma acceleration_val : acceleration = 6 # 10.
Proof. reflexivity. Qed.

Lemma friction_val : friction = 92 # 100.
Proof. reflexivity. Qed.

Lemma edge_lo_val : forall i, edge_lo i = 20.
Proof. intros i. reflexivity. Qed.

Lemma edge_hi_val : forall i, edge_hi i = match i with AxisX => 780 | AxisY => 580 end.
Proof. intros [|]; reflexivity. Qed.

Lemma edge_lo_lt_hi : forall i, edge_lo i < edge_hi i.
Proof. intros [|]; reflexivity. Qed.

Lemma Qle_bool_false : forall x y, Qle_bool x y = false -> y < x.
Proof.
  intros x y H. apply Qnot_le_lt. intros Hle.
  apply Qle_bool_iff in Hle. congruence.
Qed.

(** Splits every Python comparison in the goal and finishes by linear
    arithmetic over the rationals. *)
Ltac py_cmp :=
  repeat match goal with
         | |- context [Qlt_le_dec ?a ?b] => destruct (Qlt_le_dec a b)
         | |- context [Qeq_dec ?a ?b] => destruct (Qeq_dec a b)
         end.

Ltac py_arith :=
  unfold py_min, py_max, py_abs in *; py_cmp;
  rewrite ?max_speed_val, ?acceleration_val, ?friction_val in *;
  try lra.

Lemma py_abs_Qabs : forall x, py_abs x == Qabs x.
Proof.
  intros x. unfold py_abs. destruct (Qlt_le_dec x 0).
  - symmetry. apply Qabs_neg. lra.
  - symmetry. apply Qabs_pos. lra.
Qed.

Lemma py_abs_nonneg : forall x, 0 <= py_abs x.
Proof. intros x. py_arith. Qed.

(** ** Target velocity *)

Lemma target_vel_cases : forall cmd i,
  coord i (target_vel cmd) = 0 \/
  coord i (target_vel cmd) = max_speed \/
  coord i (target_vel cmd) = - max_speed.
Proof.
  intros cmd i. unfold target_vel.
  repeat match goal with
         | |- context [String.eqb ?a ?b] => destruct (String.eqb a b)
         end; destruct i; simpl; auto.
Qed.

Lemma target_vel_other : forall cmd,
  cmd <> "F"%string -> cmd <> "B"%string ->
  cmd <> "L"%string -> cmd <> "R"%string ->
  target_vel cmd = (0, 0).
Proof.
  intros cmd HF HB HL HR. unfold target_vel.
  apply String.eqb_neq in HF, HB, HL, HR.
  now rewrite HF, HB, HL, HR.
Qed.

(** ** Velocity stays within [max_speed] *)

Lemma accelerate_within : forall target v,
  target = max_speed \/ target = - max_speed ->
  - max_speed <= v <= max_speed ->
  - max_speed <= accelerate target v <= max_speed.
Proof.
  intros target v [-> | ->] [Hlo Hhi]; unfold accelerate; py_arith.
Qed.

Lemma apply_friction_within : forall v,
  - max_speed <= v <= max_speed ->
  - max_speed <= apply_friction v <= max_speed.
Proof.
  intros v [Hlo Hhi]. unfold apply_friction. cbv zeta. py_arith.
Qed.

Lemma update_velocity_within : forall cmd i v,
  - max_speed <= v <= max_speed ->
  - max_speed <= update_velocity (coord i (target_vel cmd)) v <= max_speed.
Proof.
  intros cmd i v Hv. unfold update_velocity.
  destruct (Qeq_dec (coord i (target_vel cmd)) 0) as [Hz | Hnz].
  - now apply apply_friction_within.
  - apply accelerate_within; [|exact Hv].
    destruct (target_vel_cases cmd i) as [H | H]; [|exact H].
    rewrite H in Hnz. exfalso. apply Hnz. reflexivity.
Qed.

Lemma bounce_vel_within : forall i p v,
  - max_speed <= v <= max_speed ->
  - max_speed <= snd (bounce i p v) <= max_speed.
Proof.
  intros i p v [Hlo Hhi]. unfold bounce.
  destruct (Qle_bool p (edge_lo i)); [|destruct (Qle_bool (edge_hi i) p)];
    simpl; py_arith.
Qed.

Lemma vel_tick : forall i cmd s,
  vel i (tick cmd s) = snd (bounce i (integrated i cmd s) (smoothed i cmd s)).
Proof. intros [|] cmd s; reflexivity. Qed.

Lemma pos_tick : forall i cmd s,
  pos i (tick cmd s) = fst (bounce i (integrated i cmd s) (smoothed i cmd s)).
Proof. intros [|] cmd s; reflexivity. Qed.

Lemma tick_vel_within : forall i cmd s,
  - max_speed <= vel i s <= max_speed ->
  - max_speed <= vel i (tick cmd s) <= max_speed.
Proof.
  intros i cmd s H. rewrite vel_tick.
  apply bounce_vel_within. now apply update_velocity_within.
Qed.

Lemma reachable_vel_within : forall s, reachable s ->
  forall i, - max_speed <= vel i s <= max_speed.
Proof.
  induction 1 as [| cmd s Hs IH]; intros i.
  - destruct i; simpl; rewrite max_speed_val; lra.
  - apply tick_vel_within, IH.
Qed.

Lemma reachable_run : forall cmd n s, reachable s -> reachable (run cmd n s).
Proof.
  intros cmd n s Hs. induction n as [| n IH]; simpl.
  - exact Hs.
  - now apply reach_tick.
Qed.

(** C1. Velocity-bound invariant: in every state reachable from the
    initial one (velocity (0,0)), whatever commands were read, both
    components of the velocity have absolute value at most [max_speed]. *)
Theorem velocity_bound_invariant : forall s,
  reachable s ->
  Qabs (vel AxisX s) <= max_speed /\ Qabs (vel AxisY s) <= max_speed.
Proof.
  intros s Hs. split; apply Qabs_Qle_condition;
    now apply reachable_vel_within.
Qed.

Lemma velocity_bound_invariant_witness :
  reachable (run "R" 9 init_state) /\
  Qabs (vel AxisX (run "R" 9 init_state)) <= max_speed /\
  Qabs (vel AxisY (run "R" 9 init_state)) <= max_speed.
Proof.
  split.
  - apply reachable_run, reach_init.
  - apply (velocity_bound_invariant (run "R" 9 init_state)).
    apply reachable_run, reach_init.
Defined.

(** ** Position stays inside the arena *)

Lemma bounce_pos_within : forall i p v,
  edge_lo i <= fst (bounce i p v) <= edge_hi i.
Proof.
  intros i p v. unfold bounce. pose proof (edge_lo_lt_hi i) as Hlh.
  destruct (Qle_bool p (edge_lo i)) eqn:Hlo.
  - simpl. lra.
  - destruct (Qle_bool (edge_hi i) p) eqn:Hhi; simpl.
    + lra.
    + apply Qle_bool_false in Hlo, Hhi. lra.
Qed.

Lemma init_pos_within : forall i, edge_lo i <= pos i init_state <= edge_hi i.
Proof. intros [|]; split; discriminate. Qed.

Lemma reachable_pos_within : forall s, reachable s ->
  forall i, edge_lo i <= pos i s <= edge_hi i.
Proof.
  induction 1 as [| cmd s Hs IH]; intros i.
  - apply init_pos_within.
  - rewrite pos_tick. apply bounce_pos_within.
Qed.

(** C2. Position-bound invariant: in every reachable state the robot
    centre lies between [ROBOT_SIZE // 2] and [WIDTH - ROBOT_SIZE // 2]
    horizontally and between [ROBOT_SIZE // 2] and
    [HEIGHT - ROBOT_SIZE // 2] vertically, edges included. *)
Theorem position_bound_invariant : forall s,
  reachable s ->
  (inject_Z (ROBOT_SIZE / 2) <= pos AxisX s <= inject_Z (WIDTH - ROBOT_SIZE / 2))
  /\
  (inject_Z (ROBOT_SIZE / 2) <= pos AxisY s <= inject_Z (HEIGHT - ROBOT_SIZE / 2)).
Proof.
  intros s Hs. split.
  - exact (reachable_pos_within s Hs AxisX).
  - exact (reachable_pos_within s Hs AxisY).
Qed.

Lemma position_bound_invariant_witness :
  reachable (run "L" 120 init_state) /\
  (inject_Z (ROBOT_SIZE / 2) <= pos AxisX (run "L" 120 init_state)
     <= inject_Z (WIDTH - ROBOT_SIZE / 2)) /\
  (inject_Z (ROBOT_SIZE / 2) <= pos AxisY (run "L" 120 init_state)
     <= inject_Z (HEIGHT - ROBOT_SIZE / 2)).
Proof.
  split.
  - apply reachable_run, reach_init.
  - apply (position_bound_invariant (run "L" 120 init_state)).
    apply reachable_run, reach_init.
Defined.

(** ** Bounce at the arena edges *)

Lemma bounce_far : forall i p v,
  edge_hi i <= p ->
  bounce i p v = (edge_hi i, - py_abs v * 0.7).
Proof.
  intros i p v Hp. unfold bounce. pose proof (edge_lo_lt_hi i) as Hlh.
  destruct (Qle_bool p (edge_lo i)) eqn:Hlo.
  - apply Qle_bool_iff in Hlo. lra.
  - apply Qle_bool_iff in Hp. now rewrite Hp.
Qed.

Lemma bounce_near : forall i p v,
  p <= edge_lo i ->
  bounce i p v = (edge_lo i, py_abs v * 0.7).
Proof.
  intros i p v Hp. unfold bounce. apply Qle_bool_iff in Hp. now rewrite Hp.
Qed.

Lemma bounce_free : forall i p v,
  Qle_bool p (edge_lo i) || Qle_bool (edge_hi i) p = false ->
  bounce i p v = (p, v).
Proof.
  intros i p v H. apply orb_false_elim in H as [Hlo Hhi].
  unfold bounce. now rewrite Hlo, Hhi.
Qed.

(** C3. Collision law, for either index [i]: when the smoothed velocity
    of this tick is positive and carries the position to or past the far
    edge, the tick ends with a negative velocity whose magnitude is 0.7
    times the magnitude it had before the bounce, and with the position
    equal to the far edge; with a negative velocity reaching the near
    edge the tick ends with a positive velocity of 0.7 times that
    magnitude and the position equal to the near edge. *)
Theorem collision_law : forall i cmd s,
  (0 < smoothed i cmd s -> edge_hi i <= integrated i cmd s ->
     vel i (tick cmd s) < 0 /\
     Qabs (vel i (tick cmd s)) == 0.7 * Qabs (smoothed i cmd s) /\
     pos i (tick cmd s) = edge_hi i)
  /\
  (smoothed i cmd s < 0 -> integrated i cmd s <= edge_lo i ->
     0 < vel i (tick cmd s) /\
     Qabs (vel i (tick cmd s)) == 0.7 * Qabs (smoothed i cmd s) /\
     pos i (tick cmd s) = edge_lo i).
Proof.
  intros i cmd s. rewrite vel_tick, pos_tick. split; intros Hv Hp.
  - rewrite (bounce_far _ _ _ Hp). cbn [fst snd].
    assert (Hr : - py_abs (smoothed i cmd s) * 0.7 == - (0.7 * smoothed i cmd s))
      by py_arith.
    rewrite Hr. repeat split.
    + lra.
    + rewrite Qabs_opp, Qabs_Qmult. reflexivity.
  - rewrite (bounce_near _ _ _ Hp). cbn [fst snd].
    assert (Hr : py_abs (smoothed i cmd s) * 0.7 == - (0.7 * smoothed i cmd s))
      by py_arith.
    rewrite Hr. repeat split.
    + lra.
    + rewrite Qabs_opp, Qabs_Qmult. reflexivity.
Qed.

Lemma collision_law_witness :
  (vel AxisX (tick "R" near_right_wall) < 0 /\
   Qabs (vel AxisX (tick "R" near_right_wall))
     == 0.7 * Qabs (smoothed AxisX "R" near_right_wall) /\
   pos AxisX (tick "R" near_right_wall) = edge_hi AxisX)
  /\
  (0 < vel AxisY (tick "F" near_top_wall) /\
   Qabs (vel AxisY (tick "F" near_top_wall))
     == 0.7 * Qabs (smoothed AxisY "F" near_top_wall) /\
   pos AxisY (tick "F" near_top_wall) = edge_lo AxisY).
Proof.
  split.
  - apply (proj1 (collision_law AxisX "R" near_right_wall)).
    + reflexivity.
    + vm_compute. discriminate.
  - apply (proj2 (collision_law AxisY "F" near_top_wall)).
    + reflexivity.
    + vm_compute. discriminate.
Defined.

(** ** Friction decay *)

Lemma geom_nonneg : forall k, 0 <= geom friction k.
Proof.
  induction k as [| k IH]; simpl.
  - lra.
  - apply Qmult_le_0_compat; [discriminate | exact IH].
Qed.

Lemma apply_friction_shrinks : forall v,
  ~ v == 0 -> Qabs (apply_friction v) < Qabs v.
Proof.
  intros v Hv. rewrite <- !py_abs_Qabs.
  unfold apply_friction. cbv zeta. py_arith.
Qed.

Lemma apply_friction_sign : forall v,
  (0 <= v -> 0 <= apply_friction v) /\ (v <= 0 -> apply_friction v <= 0).
Proof.
  intros v. unfold apply_friction. cbv zeta. split; intros H; py_arith.
Qed.

Lemma apply_friction_contracts : forall v,
  Qabs (apply_friction v) <= friction * Qabs v.
Proof.
  intros v. rewrite <- !py_abs_Qabs.
  unfold apply_friction. cbv zeta. py_arith.
Qed.

Lemma apply_friction_snaps : forall v,
  friction * Qabs v < 0.1 -> apply_friction v = 0.
Proof.
  intros v. rewrite <- py_abs_Qabs. unfold apply_friction. cbv zeta.
  intros H. destruct (Qlt_le_dec (py_abs (v * friction)) 0.1) as [Hs | Hs].
  - reflexivity.
  - exfalso. revert H Hs. py_arith.
Qed.

Lemma smoothed_idle : forall i cmd s,
  coord i (target_vel cmd) == 0 ->
  smoothed i cmd s = apply_friction (vel i s).
Proof.
  intros i cmd s Ht. unfold smoothed, update_velocity, vel.
  destruct (Qeq_dec (coord i (target_vel cmd)) 0) as [_ | Hn];
    [reflexivity | contradiction].
Qed.

Lemma vel_tick_free : forall i cmd s,
  collides i cmd s = false -> vel i (tick cmd s) = smoothed i cmd s.
Proof.
  intros i cmd s H. rewrite vel_tick. unfold collides in H.
  now rewrite (bounce_free _ _ _ H).
Qed.

Lemma idle_zero_stays : forall i cmd s,
  coord i (target_vel cmd) == 0 ->
  vel i s == 0 -> vel i (tick cmd s) == 0.
Proof.
  intros i cmd s Ht Hz. rewrite vel_tick, (smoothed_idle _ _ _ Ht).
  assert (Hs : apply_friction (vel i s) = 0).
  { apply apply_friction_snaps. rewrite Hz. reflexivity. }
  rewrite Hs. unfold bounce.
  destruct (Qle_bool _ _); [|destruct (Qle_bool _ _)]; reflexivity.
Qed.

Lemma run_S : forall cmd n s, run cmd (S n) s = tick cmd (run cmd n s).
Proof. reflexivity. Qed.

Section Decay.

Variables (i : axis) (cmd : string) (s : SimState) (horizon : nat).
Hypothesis idle : coord i (target_vel cmd) == 0.
Hypothesis free : forall k, (k < horizon)%nat ->
                            collides i cmd (run cmd k s) = false.

Lemma free_step : forall k, (k < horizon)%nat ->
  vel i (run cmd (S k) s) = apply_friction (vel i (run cmd k s)).
Proof.
  intros k Hk. rewrite run_S, (vel_tick_free _ _ _ (free k Hk)).
  now apply smoothed_idle.
Qed.

Lemma free_envelope : forall k, (k <= horizon)%nat ->
  Qabs (vel i (run cmd k s)) <= geom friction k * Qabs (vel i s).
Proof.
  induction k as [| k IH]; intros Hk.
  - simpl. lra.
  - rewrite free_step by lia.
    pose proof (apply_friction_contracts (vel i (run cmd k s))) as Hc.
    assert (IH' := IH ltac:(lia)).
    change (geom friction (S k)) with (friction * geom friction k).
    revert Hc IH'. rewrite friction_val. intros Hc IH'. nra.
Qed.

Lemma free_vel_iter : forall k, (k <= horizon)%nat ->
  vel i (run cmd k s) = Nat.iter k apply_friction (vel i s).
Proof.
  induction k as [| k IH]; intros Hk.
  - reflexivity.
  - rewrite free_step by lia. rewrite IH by lia. reflexivity.
Qed.

End Decay.

Lemma geom_45 : max_speed * geom friction 45 < 0.1.
Proof. vm_compute. reflexivity. Qed.

Lemma idle_zero_from : forall i cmd s n,
  coord i (target_vel cmd) == 0 ->
  vel i (run cmd n s) == 0 ->
  forall k, (n <= k)%nat -> vel i (run cmd k s) == 0.
Proof.
  intros i cmd s n Ht Hn k Hk. induction Hk as [| k Hk IH].
  - exact Hn.
  - rewrite run_S. now apply idle_zero_stays.
Qed.

(** C4. Decay law.  Let the command give index [i] a zero target (Stop,
    or any command that does not address [i]), let the speed on [i] be
    at most [max_speed], and let no bounce occur on [i] during the next
    45 ticks.  Then every one of those ticks that starts with a nonzero
    velocity strictly decreases its magnitude without changing its sign,
    and from the 45th tick on the velocity is 0 and stays 0. *)
Theorem decay_law : forall i cmd s,
  coord i (target_vel cmd) == 0 ->
  Qabs (vel i s) <= max_speed ->
  (forall k, (k < 45)%nat -> collides i cmd (run cmd k s) = false) ->
  (forall k, (k < 45)%nat -> ~ vel i (run cmd k s) == 0 ->
     Qabs (vel i (run cmd (S k) s)) < Qabs (vel i (run cmd k s)) /\
     (0 <= vel i (run cmd k s) -> 0 <= vel i (run cmd (S k) s)) /\
     (vel i (run cmd k s) <= 0 -> vel i (run cmd (S k) s) <= 0))
  /\
  (forall k, (45 <= k)%nat -> vel i (run cmd k s) == 0).
Proof.
  intros i cmd s Ht Hv Hfree. split.
  - intros k Hk Hnz. rewrite (free_step i cmd s 45 Ht Hfree k Hk).
    split.
    + now apply apply_friction_shrinks.
    + apply apply_friction_sign.
  - apply idle_zero_from; [exact Ht |].
    rewrite (free_step i cmd s 45 Ht Hfree 44) by lia.
    rewrite apply_friction_snaps; [reflexivity |].
    pose proof (free_envelope i cmd s 45 Ht Hfree 44 ltac:(lia)) as He.
    pose proof geom_45 as Hg. pose proof (geom_nonneg 44) as Hn.
    change (geom friction 45) with (friction * geom friction 44) in Hg.
    revert He Hg Hn Hv. generalize (geom friction 44) as g.
    generalize (Qabs (vel i (run cmd 44 s))) as a.
    generalize (Qabs (vel i s)) as b.
    rewrite friction_val, max_speed_val. intros b a g He Hg Hn Hv. nra.
Qed.

Lemma run_shift : forall cmd n s, run cmd (S n) s = run cmd n (tick cmd s).
Proof. intros cmd n s. unfold run. apply Nat.iter_succ_r. Qed.

Lemma free_for_spec : forall i cmd n s,
  free_for i cmd n s = true ->
  forall k, (k < n)%nat -> collides i cmd (run cmd k s) = false.
Proof.
  intros i cmd n. induction n as [| n IH]; intros s H k Hk; [lia |].
  simpl in H. apply andb_true_iff in H as [Hc Hrest].
  destruct k as [| k].
  - simpl. now apply negb_true_iff in Hc.
  - rewrite run_shift. apply IH; [exact Hrest | lia].
Qed.

(** Coasting from [after_forward] under Stop stays clear of the walls. *)
Lemma stop_free_45 : free_for AxisY "S" 45 after_forward = true.
Proof. vm_cast_no_check (eq_refl true). Qed.

Lemma decay_law_witness :
  (forall k, (k < 45)%nat ->
     ~ vel AxisY (run "S" k after_forward) == 0 ->
     Qabs (vel AxisY (run "S" (S k) after_forward))
       < Qabs (vel AxisY (run "S" k after_forward)) /\
     (0 <= vel AxisY (run "S" k after_forward) ->
      0 <= vel AxisY (run "S" (S k) after_forward)) /\
     (vel AxisY (run "S" k after_forward) <= 0 ->
      vel AxisY (run "S" (S k) after_forward) <= 0))
  /\
  (forall k, (45 <= k)%nat ->
     vel AxisY (run "S" k after_forward) == 0).
Proof.
  apply (decay_law AxisY "S" after_forward).
  - reflexivity.
  - vm_compute. discriminate.
  - apply free_for_spec. exact stop_free_45.
Defined.

(** ** The Forward then Stop scenario *)

Lemma idle_nonzero_before : forall i cmd s n,
  coord i (target_vel cmd) == 0 ->
  ~ vel i (run cmd n s) == 0 ->
  forall k, (k <= n)%nat -> ~ vel i (run cmd k s) == 0.
Proof.
  intros i cmd s n Ht Hn k Hk Hz. apply Hn.
  now apply (idle_zero_from i cmd s k Ht Hz).
Qed.

Lemma stop_idle : forall i, coord i (target_vel "S") == 0.
Proof. intros [|]; vm_compute; reflexivity. Qed.

Lemma after_forward_vel : vel AxisY after_forward = -4.
Proof. vm_compute. reflexivity. Qed.

Lemma coasting_vel : forall k, (k <= 45)%nat ->
  vel AxisY (run "S" k after_forward) = Nat.iter k apply_friction (-4).
Proof.
  intros k Hk. rewrite <- after_forward_vel.
  apply (free_vel_iter AxisY "S" after_forward 45 (stop_idle AxisY)).
  - apply free_for_spec. exact stop_free_45.
  - exact Hk.
Qed.

Lemma coasting_30 : Nat.iter 30 apply_friction (-4) < -0.3.
Proof. vm_compute. reflexivity. Qed.

Lemma coasting_44 : ~ Nat.iter 44 apply_friction (-4) == 0.
Proof. vm_compute. discriminate. Qed.

Lemma coasting_45 : Nat.iter 45 apply_friction (-4) == 0.
Proof. vm_compute. reflexivity. Qed.

(** C5, as the claim states its last part: the velocity would be 0 at
    some Stop tick up to the 30th.  It is not: after 30 Stop ticks it is
    still below -0.3. *)
Lemma forward_stop_scenario_counterexample :
  ~ (exists k, (k <= 30)%nat /\ vel AxisY (run "S" k after_forward) == 0).
Proof.
  intros [k [Hk Hz]].
  apply (idle_nonzero_before AxisY "S" after_forward 30 (stop_idle AxisY))
    with (k := k); [ | exact Hk | exact Hz].
  rewrite coasting_vel by lia. intros H30.
  pose proof coasting_30 as Hlt. rewrite H30 in Hlt. discriminate Hlt.
Qed.

(** C5, amended.  From velocity (0,0) at (400,300), ten Forward ticks
    give velocity.y = -4 and lower position.y by the sum of the ten
    per-tick values of velocity.y; under Stop the velocity.y is then
    nonzero during the first 44 ticks, still below -0.3 after the 30th,
    and is exactly 0 from the 45th Stop tick on. *)
Theorem forward_stop_scenario :
  vel AxisY after_forward = -4 /\
  pos AxisY after_forward
    == pos AxisY init_state + vel_sum AxisY "F" 10 init_state /\
  vel AxisY (run "S" 30 after_forward) < -0.3 /\
  (forall k, (k < 45)%nat -> ~ vel AxisY (run "S" k after_forward) == 0) /\
  (forall k, (45 <= k)%nat -> vel AxisY (run "S" k after_forward) == 0).
Proof.
  split; [exact after_forward_vel |].
  split; [vm_compute; reflexivity |].
  split; [rewrite coasting_vel by lia; exact coasting_30 |].
  split.
  - intros k Hk.
    apply (idle_nonzero_before AxisY "S" after_forward 44 (stop_idle AxisY));
      [ | lia].
    rewrite coasting_vel by lia. exact coasting_44.
  - apply (idle_zero_from AxisY "S" after_forward 45 (stop_idle AxisY)).
    rewrite coasting_vel by lia. exact coasting_45.
Qed.

(** ** The trail *)

Lemma tl_app_nonempty : forall (A : Type) (l : list A) (x : A),
  l <> [] -> tl (l ++ [x]) = tl l ++ [x].
Proof. intros A [| a l] x H; [contradiction | reflexivity]. Qed.

Lemma trail_tick : forall cmd s,
  trail_points (tick cmd s)
  = add_to_trail (robot_pos (tick cmd s)) (robot_pos s) (trail_points s).
Proof. reflexivity. Qed.

Lemma add_to_trail_capacity : forall new_pos old_pos trail,
  (List.length trail <= max_trail)%nat ->
  (List.length (add_to_trail new_pos old_pos trail) <= max_trail)%nat.
Proof.
  intros new_pos old_pos trail H. unfold add_to_trail.
  destruct (displaced new_pos old_pos); [| exact H]. cbv zeta.
  destruct (Nat.ltb_spec max_trail (List.length (trail ++ [old_pos]))) as [Hlt | Hge].
  - destruct trail as [| p trail]; simpl in *.
    + unfold max_trail in Hlt. lia.
    + rewrite length_app in *. simpl in *. lia.
  - exact Hge.
Qed.

Lemma reachable_trail_capacity : forall s,
  reachable s -> (List.length (trail_points s) <= max_trail)%nat.
Proof.
  induction 1 as [| cmd s Hs IH].
  - simpl. lia.
  - rewrite trail_tick. now apply add_to_trail_capacity.
Qed.

Lemma add_to_trail_evicts : forall new_pos old_pos trail,
  displaced new_pos old_pos = true ->
  List.length trail = max_trail ->
  add_to_trail new_pos old_pos trail = tl trail ++ [old_pos].
Proof.
  intros new_pos old_pos trail Hd Hlen. unfold add_to_trail.
  rewrite Hd. cbv zeta.
  destruct (Nat.ltb_spec max_trail (List.length (trail ++ [old_pos]))) as [Hlt | Hge].
  - apply tl_app_nonempty. intros ->. discriminate Hlen.
  - rewrite length_app in Hge. simpl in Hge. lia.
Qed.

Lemma add_to_trail_appends : forall new_pos old_pos trail,
  displaced new_pos old_pos = true ->
  (List.length trail < max_trail)%nat ->
  add_to_trail new_pos old_pos trail = trail ++ [old_pos].
Proof.
  intros new_pos old_pos trail Hd Hlen. unfold add_to_trail.
  rewrite Hd. cbv zeta.
  destruct (Nat.ltb_spec max_trail (List.length (trail ++ [old_pos]))) as [Hlt | Hge].
  - rewrite length_app in Hlt. simpl in Hlt. lia.
  - reflexivity.
Qed.

(** C6. Trail capacity with FIFO eviction.  In every reachable state the
    trail holds at most [max_trail] = 150 points; and one tick from any
    state whose trail is within capacity leaves it within capacity, an
    append to a full trail dropping exactly its first (oldest) entry and
    keeping the others in order, an append to a shorter trail dropping
    nothing. *)
Theorem trail_capacity_fifo :
  (forall s, reachable s -> (List.length (trail_points s) <= 150)%nat)
  /\
  (forall cmd s,
     (List.length (trail_points s) <= max_trail)%nat ->
     (List.length (trail_points (tick cmd s)) <= max_trail)%nat /\
     (displaced (robot_pos (tick cmd s)) (robot_pos s) = true ->
      List.length (trail_points s) = max_trail ->
      trail_points (tick cmd s) = tl (trail_points s) ++ [robot_pos s]) /\
     (displaced (robot_pos (tick cmd s)) (robot_pos s) = true ->
      (List.length (trail_points s) < max_trail)%nat ->
      trail_points (tick cmd s) = trail_points s ++ [robot_pos s])).
Proof.
  split.
  - exact reachable_trail_capacity.
  - intros cmd s Hcap. rewrite trail_tick. split; [| split].
    + now apply add_to_trail_capacity.
    + apply add_to_trail_evicts.
    + apply add_to_trail_appends.
Qed.

Lemma trail_capacity_fifo_witness :
  (List.length (trail_points full_trail) <= max_trail)%nat /\
  (List.length (trail_points (tick "R"%string full_trail)) <= max_trail)%nat /\
  trail_points (tick "R"%string full_trail)
  = tl (trail_points full_trail) ++ [robot_pos full_trail].
Proof.
  assert (Hcap : (List.length (trail_points full_trail) <= max_trail)%nat)
    by (vm_compute; lia).
  split; [exact Hcap |].
  destruct (proj2 trail_capacity_fifo "R"%string full_trail Hcap) as [Hlen [Hevict _]].
  split; [exact Hlen |].
  apply Hevict; vm_compute; reflexivity.
Defined.

Lemma over_half_spec : forall x,
  negb (Qle_bool (py_abs x) 0.5) = true <-> 0.5 < Qabs x.
Proof.
  intros x. rewrite negb_true_iff. split.
  - intros H. apply Qle_bool_false in H. now rewrite <- py_abs_Qabs.
  - intros H. destruct (Qle_bool (py_abs x) 0.5) eqn:E; [| reflexivity].
    apply Qle_bool_iff in E. rewrite py_abs_Qabs in E. lra.
Qed.

Lemma displaced_spec : forall new_pos old_pos,
  displaced new_pos old_pos = true <->
  0.5 < Qabs (fst new_pos - fst old_pos) \/
  0.5 < Qabs (snd new_pos - snd old_pos).
Proof.
  intros new_pos old_pos. unfold displaced.
  rewrite orb_true_iff, !over_half_spec. reflexivity.
Qed.

(** C7, as stated, fails on two counts.  After a second tick of Right the
    code has appended the position the robot had before the tick, (400.6,
    300), where the rule would append the new one, (401.8, 300); and on
    a slow tick (step 0.467) the code appends nothing although the new
    position is 0.975 away from the last recorded point. *)
Lemma trail_recording_rule_counterexample :
  ~ records_new_position "R" one_right /\
  ~ records_new_position "S" slowing.
Proof.
  unfold records_new_position. split; vm_compute; discriminate.
Qed.

(** C7, amended.  On each tick the test compares the position after the
    tick with the position before it, index by index.  If either
    coordinate moved by more than 0.5, the position held BEFORE the tick
    is appended: to a trail of fewer than [max_trail] points nothing
    else happens, from a trail that already holds [max_trail] points (or
    more) the oldest entry is removed as well.  Otherwise the trail is
    unchanged. *)
Theorem trail_recording_rule : forall cmd s,
  (0.5 < Qabs (pos AxisX (tick cmd s) - pos AxisX s) \/
   0.5 < Qabs (pos AxisY (tick cmd s) - pos AxisY s) ->
   ((List.length (trail_points s) < max_trail)%nat ->
    trail_points (tick cmd s) = trail_points s ++ [robot_pos s]) /\
   ((max_trail <= List.length (trail_points s))%nat ->
    trail_points (tick cmd s) = tl (trail_points s) ++ [robot_pos s]))
  /\
  (Qabs (pos AxisX (tick cmd s) - pos AxisX s) <= 0.5 ->
   Qabs (pos AxisY (tick cmd s) - pos AxisY s) <= 0.5 ->
   trail_points (tick cmd s) = trail_points s).
Proof.
  intros cmd s. rewrite trail_tick. unfold pos, coord, add_to_trail. split.
  - intros Hmoved. apply displaced_spec in Hmoved. rewrite Hmoved. cbv zeta.
    destruct (Nat.ltb_spec max_trail
                (List.length (trail_points s ++ [robot_pos s]))) as [Hlt | Hge];
      rewrite length_app in *; cbn [List.length] in *.
    + split; intros Hlen; [lia |].
      apply tl_app_nonempty. intros E. rewrite E in Hlen.
      unfold max_trail in Hlen. simpl in Hlen. lia.
    + split; intros Hlen; [reflexivity | lia].
  - intros Hx Hy.
    destruct (displaced (robot_pos (tick cmd s)) (robot_pos s)) eqn:Hd;
      [| reflexivity].
    apply displaced_spec in Hd. destruct Hd as [Hd | Hd]; lra.
Qed.

(** The second Right tick appends to a short trail; a Right tick from a
    full trail appends and drops the oldest point. *)
Lemma trail_recording_rule_witness :
  trail_points (tick "R" one_right)
  = trail_points one_right ++ [robot_pos one_right]
  /\
  trail_points (tick "R" full_trail)
  = tl (trail_points full_trail) ++ [robot_pos full_trail].
Proof.
  split.
  - apply (proj1 (trail_recording_rule "R" one_right)).
    + left. vm_compute. reflexivity.
    + vm_compute. lia.
  - apply (proj1 (trail_recording_rule "R" full_trail)).
    + left. vm_compute. reflexivity.
    + vm_compute. lia.
Defined.

(** ** The request parameters *)

Lemma args_get_missing : forall args key default,
  (forall k v, In (k, v) args -> k <> key) ->
  args_get args key default = default.
Proof.
  induction args as [| [k v] args IH]; intros key default Hno; simpl.
  - reflexivity.
  - assert (Hk : k <> key) by (apply (Hno k v); now left).
    apply String.eqb_neq in Hk. rewrite Hk.
    apply IH. intros k' v' Hin. apply (Hno k' v'). now right.
Qed.

Lemma args_get_first : forall pre key default value rest,
  (forall k v, In (k, v) pre -> k <> key) ->
  args_get (pre ++ (key, value) :: rest) key default = value.
Proof.
  induction pre as [| [k v] pre IH]; intros key default value rest Hno; simpl.
  - now rewrite String.eqb_refl.
  - assert (Hk : k <> key) by (apply (Hno k v); now left).
    apply String.eqb_neq in Hk. rewrite Hk.
    apply IH. intros k' v' Hin. apply (Hno k' v'). now right.
Qed.

(** ** The command endpoint *)

(** C8, as stated, fails: the token X is none of the five commands, and
    the endpoint stores it as it came, not as S. *)
Lemma unrecognized_command_counterexample :
  ~ valid_command "X" /\
  fst (receive_command [("cmd", "X")%string]) = "X"%string /\
  fst (receive_command [("cmd", "X")%string]) <> "S"%string /\
  ~ valid_command (fst (receive_command [("cmd", "X")%string])).
Proof.
  assert (Hx : ~ valid_command "X").
  { intros [H | [H | [H | [H | H]]]]; discriminate H. }
  repeat split; try exact Hx; try reflexivity. discriminate.
Qed.

(** C8, amended.  The endpoint validates nothing.  A request carrying a
    [cmd] parameter, in whatever position among its parameters, stores
    the (first) token given for it verbatim, whatever it is, and echoes
    it in the response; a request without the parameter, whatever else
    it carries, stores the default S.  The motion update gives a stored
    token other than F, B, L and R the target velocity (0, 0). *)
Theorem unrecognized_command_stored_verbatim :
  (forall pre token rest,
     (forall k v, In (k, v) pre -> k <> "cmd"%string) ->
     fst (receive_command (pre ++ ("cmd"%string, token) :: rest)) = token /\
     command (snd (receive_command (pre ++ ("cmd"%string, token) :: rest)))
     = token /\
     (~ valid_command token ->
      ~ valid_command
          (fst (receive_command (pre ++ ("cmd"%string, token) :: rest)))))
  /\
  (forall args,
     (forall k v, In (k, v) args -> k <> "cmd"%string) ->
     fst (receive_command args) = "S"%string /\
     command (snd (receive_command args)) = "S"%string)
  /\
  (forall token,
     token <> "F"%string -> token <> "B"%string ->
     token <> "L"%string -> token <> "R"%string ->
     target_vel token = (0, 0)).
Proof.
  split; [| split].
  - intros pre token rest Hno. unfold receive_command. cbn [fst snd command].
    rewrite (args_get_first pre "cmd" "S" token rest Hno).
    split; [reflexivity | split; [reflexivity | intros H; exact H]].
  - intros args Hno. unfold receive_command. cbn [fst snd command].
    rewrite (args_get_missing args "cmd" "S" Hno). now split.
  - exact target_vel_other.
Qed.

(** A request [?id=7&cmd=X] stores X, a request [?id=7] stores S, and
    the token X drives nothing. *)
Lemma unrecognized_command_stored_verbatim_witness :
  (fst (receive_command ([("id", "7")%string] ++ ("cmd", "X")%string :: []))
   = "X"%string /\
   command (snd (receive_command
                   ([("id", "7")%string] ++ ("cmd", "X")%string :: [])))
   = "X"%string /\
   (~ valid_command "X" ->
    ~ valid_command
        (fst (receive_command
                ([("id", "7")%string] ++ ("cmd", "X")%string :: [])))))
  /\
  (fst (receive_command [("id", "7")%string]) = "S"%string /\
   command (snd (receive_command [("id", "7")%string])) = "S"%string)
  /\
  target_vel "X" = (0, 0).
Proof.
  destruct unrecognized_command_stored_verbatim as [Hcmd [Hnone Hzero]].
  split; [| split].
  - apply Hcmd. intros k v [H | []]. inversion H. discriminate.
  - apply Hnone. intros k v [H | []]. inversion H. discriminate.
  - apply Hzero; discriminate.
Defined.

(** ** Steady state *)

Lemma update_velocity_steady : forall target v,
  v == target -> update_velocity target v == v.
Proof.
  intros target v H. unfold update_velocity.
  destruct (Qeq_dec target 0) as [Hz | Hnz].
  - rewrite apply_friction_snaps.
    + rewrite H, Hz. reflexivity.
    + rewrite H, Hz. reflexivity.
  - unfold accelerate.
    destruct (Qlt_le_dec v target) as [Hlt | _]; [lra |].
    destruct (Qlt_le_dec target v) as [Hgt | _]; [lra |].
    reflexivity.
Qed.

(** C9, as stated, fails at the wall: one tick before the top wall the
    robot, which is a reachable state, moves at the Forward target -4;
    the next Forward tick bounces and leaves it at +2.8. *)
Lemma steady_state_counterexample :
  reachable at_top_wall /\
  vel AxisY at_top_wall == coord AxisY (target_vel "F") /\
  vel AxisY (tick "F" at_top_wall) == 2.8 /\
  ~ vel AxisY (tick "F" at_top_wall) == vel AxisY at_top_wall.
Proof.
  split; [apply reachable_run, reach_init |].
  split; [vm_compute; reflexivity |].
  split; [vm_compute; reflexivity |].
  vm_compute. discriminate.
Qed.

(** C9, amended.  If the velocity of an index equals the target the
    command gives that index, the velocity update of the tick leaves it
    unchanged; the whole tick leaves it unchanged when that index does
    not bounce off an arena edge during the tick. *)
Theorem steady_state_idempotence : forall i cmd s,
  vel i s == coord i (target_vel cmd) ->
  smoothed i cmd s == vel i s /\
  (collides i cmd s = false -> vel i (tick cmd s) == vel i s).
Proof.
  intros i cmd s H.
  assert (Hs : smoothed i cmd s == vel i s)
    by (apply update_velocity_steady; exact H).
  split; [exact Hs |].
  intros Hfree. rewrite (vel_tick_free _ _ _ Hfree). exact Hs.
Qed.

Lemma steady_state_idempotence_witness :
  smoothed AxisY "F" after_forward == vel AxisY after_forward /\
  (collides AxisY "F" after_forward = false ->
   vel AxisY (tick "F" after_forward) == vel AxisY after_forward).
Proof.
  apply (steady_state_idempotence AxisY "F" after_forward).
  vm_compute. reflexivity.
Defined.

(** ** Tokens outside F, B, L, R *)

Lemma tick_target : forall cmd cmd' s,
  target_vel cmd = target_vel cmd' -> tick cmd s = tick cmd' s.
Proof.
  intros cmd cmd' s H. unfold tick, integrated, smoothed.
  rewrite H. reflexivity.
Qed.

(** C10. For every command token other than F, B, L and R, arbitrary
    strings included, one tick yields the same state (velocity,
    position and trail) as the same tick under S: both have target
    velocity (0, 0). *)
Theorem unknown_token_ticks_as_stop : forall cmd s,
  cmd <> "F"%string -> cmd <> "B"%string ->
  cmd <> "L"%string -> cmd <> "R"%string ->
  target_vel cmd = (0, 0) /\
  target_vel "S" = (0, 0) /\
  tick cmd s = tick "S" s.
Proof.
  intros cmd s HF HB HL HR.
  pose proof (target_vel_other cmd HF HB HL HR) as Ht.
  split; [exact Ht |]. split; [reflexivity |].
  apply tick_target. rewrite Ht. reflexivity.
Qed.

Lemma unknown_token_ticks_as_stop_witness :
  target_vel "forward" = (0, 0) /\
  target_vel "S" = (0, 0) /\
  tick "forward" after_forward = tick "S" after_forward.
Proof.
  apply (unknown_token_ticks_as_stop "forward" after_forward); discriminate.
Defined.

(** * Further properties of the script *)

(** X1. [receive_command] looks at the [cmd] parameter only: a request
    without it, whatever else it carries, stores the default S; a
    request with it stores the first value given for [cmd], later
    repetitions and all other parameters being ignored.  Either way the
    response reports success and echoes the stored command. *)
Theorem receive_command_lookup :
  (forall args,
     (forall k v, In (k, v) args -> k <> "cmd"%string) ->
     receive_command args = ("S"%string, mkResponse "success" "S"))
  /\
  (forall pre token rest,
     (forall k v, In (k, v) pre -> k <> "cmd"%string) ->
     receive_command (pre ++ ("cmd"%string, token) :: rest)
     = (token, mkResponse "success" token)).
Proof.
  split.
  - intros args Hno. unfold receive_command.
    now rewrite (args_get_missing args "cmd" "S" Hno).
  - intros pre token rest Hno. unfold receive_command.
    now rewrite (args_get_first pre "cmd" "S" token rest Hno).
Qed.

Lemma receive_command_lookup_witness :
  receive_command [("speed", "9")%string; ("Cmd", "F")%string]
  = ("S"%string, mkResponse "success" "S")
  /\
  receive_command ([("speed", "9")%string]
                   ++ ("cmd", "L")%string :: [("cmd", "R")%string])
  = ("L"%string, mkResponse "success" "L").
Proof.
  split.
  - apply (proj1 receive_command_lookup).
    intros k v [H | [H | []]]; inversion H; discriminate.
  - apply (proj2 receive_command_lookup).
    intros k v [H | []]; inversion H; discriminate.
Defined.

(** ** Events, requests and the command store *)

Lemma apply_input_written : forall x r c,
  snd (apply_input x (r, c))
  = match written x with Some c' => c' | None => c end.
Proof.
  intros [[| key |] | args] r c; simpl; try reflexivity.
  unfold key_command.
  destruct (key =? K_w)%Z; [reflexivity |].
  destruct (key =? K_s)%Z; [reflexivity |].
  destruct (key =? K_a)%Z; [reflexivity |].
  destruct (key =? K_d)%Z; [reflexivity |].
  destruct (key =? K_SPACE)%Z; reflexivity.
Qed.

Lemma apply_inputs_command : forall inputs st,
  snd (apply_inputs inputs st)
  = match last_written inputs with Some c' => c' | None => snd st end.
Proof.
  induction inputs as [| x inputs IH]; intros [r c].
  - reflexivity.
  - change (apply_inputs (x :: inputs) (r, c))
      with (apply_inputs inputs (apply_input x (r, c))).
    rewrite IH. simpl last_written.
    destruct (last_written inputs) as [c' |]; [reflexivity |].
    destruct (apply_input x (r, c)) as [r' c''] eqn:E.
    pose proof (apply_input_written x r c) as H. rewrite E in H. exact H.
Qed.

(** X2. Last write wins, for both producers alike: the command a pass of
    the loop reads, keeps and feeds to the physics is the one written by
    the last request or mapped key (W, S, A, D, space) that came before
    the read, in whatever order requests and key presses interleaved;
    with no such input the command is the one of the previous pass. *)
Theorem last_write_wins : forall inputs st,
  robot_command (frame inputs st)
  = match last_written inputs with
    | Some c => c
    | None => robot_command st
    end
  /\
  sim_state (frame inputs st)
  = tick (robot_command (frame inputs st)) (sim_state st).
Proof.
  intros inputs st. split; [| reflexivity].
  unfold frame. cbn [robot_command]. apply apply_inputs_command.
Qed.

Lemma key_command_valid : forall key c,
  valid_command c -> valid_command (key_command key c).
Proof.
  intros key c Hc. unfold key_command, valid_command.
  destruct (key =? K_w)%Z; [auto |].
  destruct (key =? K_s)%Z; [auto |].
  destruct (key =? K_a)%Z; [auto |].
  destruct (key =? K_d)%Z; [auto |].
  destruct (key =? K_SPACE)%Z; [auto 6 | exact Hc].
Qed.

(** X3. The keyboard can only store one of the five commands: when the
    inputs of a pass are events only (no request), a valid command
    stays valid, whatever keys were pressed. *)
Theorem events_keep_command_valid : forall inputs r c,
  valid_command c ->
  existsb is_request inputs = false ->
  valid_command (snd (apply_inputs inputs (r, c))).
Proof.
  induction inputs as [| x inputs IH]; intros r c Hc Hev.
  - exact Hc.
  - simpl in Hev. apply orb_false_elim in Hev as [Hx Hrest].
    change (apply_inputs (x :: inputs) (r, c))
      with (apply_inputs inputs (apply_input x (r, c))).
    destruct x as [[| key |] | args]; try discriminate Hx; simpl apply_input.
    + now apply IH.
    + apply IH; [now apply key_command_valid | exact Hrest].
    + now apply IH.
Qed.

Lemma events_keep_command_valid_witness :
  valid_command
    (snd (apply_inputs
            [Event (KEYDOWN 120); Event (KEYDOWN K_a); Event OTHER; Event QUIT]
            (true, "S"%string))).
Proof.
  apply events_keep_command_valid.
  - unfold valid_command. auto 6.
  - reflexivity.
Defined.

Lemma apply_inputs_running : forall inputs st,
  fst (apply_inputs inputs st) = fst st && negb (existsb is_quit inputs).
Proof.
  induction inputs as [| x inputs IH]; intros [r c].
  - simpl. now rewrite andb_true_r.
  - change (apply_inputs (x :: inputs) (r, c))
      with (apply_inputs inputs (apply_input x (r, c))).
    rewrite IH. destruct x as [[| key |] | args]; simpl; try reflexivity.
    now destruct r.
Qed.

(** X4. A [QUIT] event ends the loop only at the next test of
    [running]: the pass that drains it still handles the inputs that
    follow it, still runs its physics step, and no later pass is
    executed. *)
Theorem quit_completes_pass : forall inputs rest st,
  running st = true ->
  existsb is_quit inputs = true ->
  simulate (inputs :: rest) st = frame inputs st /\
  running (frame inputs st) = false /\
  sim_state (frame inputs st)
  = tick (robot_command (frame inputs st)) (sim_state st).
Proof.
  intros inputs rest st Hrun Hquit.
  assert (Hstop : running (frame inputs st) = false).
  { unfold frame. cbn [running]. rewrite apply_inputs_running.
    cbn [fst]. now rewrite Hquit, andb_false_r. }
  split; [| split; [exact Hstop | reflexivity]].
  change (simulate (inputs :: rest) st)
    with (if running st then simulate rest (frame inputs st) else st).
  rewrite Hrun. destruct rest as [| inputs' rest]; [reflexivity |].
  change (simulate (inputs' :: rest) (frame inputs st))
    with (if running (frame inputs st)
          then simulate rest (frame inputs' (frame inputs st))
          else frame inputs st).
  now rewrite Hstop.
Qed.

Lemma quit_completes_pass_witness :
  simulate ([Event QUIT; Event (KEYDOWN K_d)] :: [[Event (KEYDOWN K_w)]])
           init_loop
  = frame [Event QUIT; Event (KEYDOWN K_d)] init_loop /\
  running (frame [Event QUIT; Event (KEYDOWN K_d)] init_loop) = false /\
  sim_state (frame [Event QUIT; Event (KEYDOWN K_d)] init_loop)
  = tick (robot_command (frame [Event QUIT; Event (KEYDOWN K_d)] init_loop))
         (sim_state init_loop).
Proof.
  apply quit_completes_pass; reflexivity.
Defined.

Lemma frame_reachable : forall inputs st,
  reachable (sim_state st) -> reachable (sim_state (frame inputs st)).
Proof. intros inputs st H. unfold frame. cbn [sim_state]. now apply reach_tick. Qed.

Lemma simulate_reachable : forall frames st,
  reachable (sim_state st) -> reachable (sim_state (simulate frames st)).
Proof.
  induction frames as [| inputs frames IH]; intros st H; simpl.
  - exact H.
  - destruct (running st); [| exact H].
    apply IH. now apply frame_reachable.
Qed.

(** X5. The whole loop keeps the physical invariants, whatever it is
    fed: after any number of passes from the initial state, with any
    events and any requests (unknown tokens included) in any order, each
    velocity component is within [max_speed], the robot centre is inside
    the arena and the trail holds at most [max_trail] points. *)
Theorem simulate_invariants : forall frames i,
  Qabs (vel i (sim_state (simulate frames init_loop))) <= max_speed /\
  edge_lo i <= pos i (sim_state (simulate frames init_loop)) <= edge_hi i /\
  (List.length (trail_points (sim_state (simulate frames init_loop)))
   <= max_trail)%nat.
Proof.
  intros frames i.
  assert (Hr : reachable (sim_state (simulate frames init_loop)))
    by (apply simulate_reachable; apply reach_init).
  split; [| split].
  - apply Qabs_Qle_condition. now apply reachable_vel_within.
  - now apply reachable_pos_within.
  - now apply reachable_trail_capacity.
Qed.

(** ** More on the motion update *)

(** X6. Acceleration never overshoots: a velocity below its target moves
    up and ends at or below the target, a velocity above its target
    moves down and ends at or above it. *)
Theorem accelerate_no_overshoot : forall target v,
  (v < target -> v < accelerate target v <= target)
  /\
  (target < v -> target <= accelerate target v < v).
Proof.
  intros target v. unfold accelerate. split; intros H; py_arith.
Qed.

Lemma update_velocity_driven : forall target v,
  ~ target == 0 -> update_velocity target v = accelerate target v.
Proof.
  intros target v H. unfold update_velocity.
  destruct (Qeq_dec target 0); [contradiction | reflexivity].
Qed.

Lemma inject_nat_succ : forall k,
  inject_Z (Z.of_nat (S k)) == inject_Z (Z.of_nat k) + 1.
Proof.
  intros k. rewrite Nat2Z.inj_succ. unfold Z.succ.
  rewrite inject_Z_plus. reflexivity.
Qed.

Lemma inject_nat_nonneg : forall k, 0 <= inject_Z (Z.of_nat k).
Proof.
  intros k. change 0 with (inject_Z 0). rewrite <- Zle_Qle. lia.
Qed.

Lemma accelerate_closes : forall target v k,
  Qabs (target - v) <= inject_Z (Z.of_nat (S k)) * acceleration ->
  Qabs (target - accelerate target v) <= inject_Z (Z.of_nat k) * acceleration.
Proof.
  intros target v k H. rewrite inject_nat_succ in H.
  pose proof (inject_nat_nonneg k) as Hk.
  revert H Hk. generalize (inject_Z (Z.of_nat k)) as a. intros a H Ha.
  apply Qabs_Qle_condition in H. apply Qabs_Qle_condition.
  revert H. unfold accelerate. py_arith.
Qed.

Lemma free_vel_step : forall i cmd s,
  collides i cmd s = false ->
  vel i (tick cmd s) = update_velocity (coord i (target_vel cmd)) (vel i s).
Proof. intros i cmd s H. now rewrite (vel_tick_free _ _ _ H). Qed.

(** X7. A driven index reaches its target: when the command gives index
    [i] a nonzero target, the speed on [i] is at most [max_speed] and
    [i] does not bounce, the velocity on [i] equals the target after 14
    ticks and keeps it for as long as no bounce occurs. *)
Theorem drive_reaches_target : forall i cmd s n,
  ~ coord i (target_vel cmd) == 0 ->
  Qabs (vel i s) <= max_speed ->
  (14 <= n)%nat ->
  (forall k, (k < n)%nat -> collides i cmd (run cmd k s) = false) ->
  vel i (run cmd n s) == coord i (target_vel cmd).
Proof.
  intros i cmd s n Ht Hv Hn Hfree.
  assert (Hstep : forall k, (k < n)%nat ->
            vel i (run cmd (S k) s)
            = accelerate (coord i (target_vel cmd)) (vel i (run cmd k s))).
  { intros k Hk. rewrite run_S, (free_vel_step _ _ _ (Hfree k Hk)).
    now apply update_velocity_driven. }
  assert (Hclose : forall k, (k <= 14)%nat ->
            Qabs (coord i (target_vel cmd) - vel i (run cmd k s))
            <= inject_Z (Z.of_nat (14 - k)) * acceleration).
  { induction k as [| k IH]; intros Hk.
    - change (run cmd 0 s) with s. apply Qabs_Qle_condition in Hv.
      apply Qabs_Qle_condition. change (inject_Z (Z.of_nat (14 - 0))) with 14.
      revert Hv. rewrite max_speed_val, acceleration_val.
      destruct (target_vel_cases cmd i) as [E | [E | E]]; rewrite E in *;
        rewrite ?max_speed_val; intros Hv; lra.
    - rewrite Hstep by lia. apply accelerate_closes.
      replace (S (14 - S k)) with (14 - k)%nat by lia. apply IH. lia. }
  assert (H14 : vel i (run cmd 14 s) == coord i (target_vel cmd)).
  { pose proof (Hclose 14%nat (le_n _)) as H.
    change (inject_Z (Z.of_nat (14 - 14))) with 0 in H.
    apply Qabs_Qle_condition in H. lra. }
  clear Hclose. induction Hn as [| n Hn IH].
  - exact H14.
  - rewrite Hstep by lia.
    rewrite <- update_velocity_driven by exact Ht.
    rewrite update_velocity_steady.
    + apply IH.
      * intros k Hk. apply Hfree. lia.
      * intros k Hk. apply Hstep. lia.
    + apply IH.
      * intros k Hk. apply Hfree. lia.
      * intros k Hk. apply Hstep. lia.
Qed.

Lemma drive_reaches_target_witness :
  vel AxisX (run "R" 14 init_state) == coord AxisX (target_vel "R").
Proof.
  apply (drive_reaches_target AxisX "R" init_state 14).
  - vm_compute. discriminate.
  - vm_compute. discriminate.
  - apply le_n.
  - apply free_for_spec. vm_compute. reflexivity.
Defined.

Lemma bounce_between : forall i p q v,
  edge_lo i <= p <= edge_hi i ->
  (p <= q -> p <= fst (bounce i q v) <= q) /\
  (q <= p -> q <= fst (bounce i q v) <= p).
Proof.
  intros i p q v [Hlo Hhi]. unfold bounce.
  destruct (Qle_bool q (edge_lo i)) eqn:E1.
  - apply Qle_bool_iff in E1. cbn [fst]. split; intros H; lra.
  - apply Qle_bool_false in E1.
    destruct (Qle_bool (edge_hi i) q) eqn:E2; cbn [fst].
    + apply Qle_bool_iff in E2. split; intros H; lra.
    + split; intros H; lra.
Qed.

(** X8. The bounce never throws the robot back or forth: in a reachable
    state the coordinate a tick ends with lies between the coordinate
    before the tick and the integrated one (position plus velocity), so
    the robot moves in the direction of its velocity and at most as far
    as the integration took it; the clamp to an edge only shortens the
    step. *)
Theorem step_displacement : forall cmd s i,
  reachable s ->
  (pos i s <= integrated i cmd s ->
   pos i s <= pos i (tick cmd s) <= integrated i cmd s)
  /\
  (integrated i cmd s <= pos i s ->
   integrated i cmd s <= pos i (tick cmd s) <= pos i s).
Proof.
  intros cmd s i Hs. rewrite pos_tick.
  apply bounce_between. now apply reachable_pos_within.
Qed.

Lemma step_displacement_witness :
  (pos AxisY at_top_wall <= integrated AxisY "F" at_top_wall ->
   pos AxisY at_top_wall <= pos AxisY (tick "F" at_top_wall)
     <= integrated AxisY "F" at_top_wall)
  /\
  (integrated AxisY "F" at_top_wall <= pos AxisY at_top_wall ->
   integrated AxisY "F" at_top_wall <= pos AxisY (tick "F" at_top_wall)
     <= pos AxisY at_top_wall).
Proof.
  apply (step_displacement "F" at_top_wall AxisY).
  apply reachable_run, reach_init.
Defined.

Lemma rest_axis : forall i cmd s,
  coord i (target_vel cmd) == 0 ->
  vel i s == 0 ->
  edge_lo i <= pos i s <= edge_hi i ->
  vel i (tick cmd s) == 0 /\ pos i (tick cmd s) == pos i s.
Proof.
  intros i cmd s Ht Hv [Hlo Hhi]. split; [now apply idle_zero_stays |].
  rewrite pos_tick. unfold integrated. rewrite (smoothed_idle _ _ _ Ht).
  rewrite apply_friction_snaps by (rewrite Hv; reflexivity).
  fold (pos i s). unfold bounce.
  destruct (Qle_bool (pos i s + 0) (edge_lo i)) eqn:E1.
  - apply Qle_bool_iff in E1. cbn [fst]. lra.
  - destruct (Qle_bool (edge_hi i) (pos i s + 0)) eqn:E2; cbn [fst].
    + apply Qle_bool_iff in E2. lra.
    + lra.
Qed.

(** X9. Rest is a fixed point: with a command that drives no index (S or
    any token outside F, B, L, R), a robot standing still anywhere in
    the arena, walls included, stays where it is with zero velocity, and
    the trail does not grow. *)
Theorem rest_is_fixed : forall cmd s,
  target_vel cmd = (0, 0) ->
  vel AxisX s == 0 -> vel AxisY s == 0 ->
  in_arena (robot_pos s) ->
  (forall i, vel i (tick cmd s) == 0 /\ pos i (tick cmd s) == pos i s) /\
  trail_points (tick cmd s) = trail_points s.
Proof.
  intros cmd s Ht Hx Hy [Hax Hay].
  assert (Hrest : forall i,
            vel i (tick cmd s) == 0 /\ pos i (tick cmd s) == pos i s).
  { intros i. apply rest_axis.
    - rewrite Ht. destruct i; reflexivity.
    - destruct i; assumption.
    - destruct i; assumption. }
  split; [exact Hrest |].
  rewrite trail_tick. unfold add_to_trail.
  destruct (displaced (robot_pos (tick cmd s)) (robot_pos s)) eqn:Hd;
    [| reflexivity].
  exfalso. apply displaced_spec in Hd.
  destruct (Hrest AxisX) as [_ Hpx]. destruct (Hrest AxisY) as [_ Hpy].
  unfold pos, coord in Hpx, Hpy.
  destruct Hd as [Hd | Hd]; revert Hd.
  - rewrite Hpx. setoid_replace (fst (robot_pos s) - fst (robot_pos s)) with 0
      by ring. discriminate.
  - rewrite Hpy. setoid_replace (snd (robot_pos s) - snd (robot_pos s)) with 0
      by ring. discriminate.
Qed.

Lemma rest_is_fixed_witness :
  (forall i, vel i (tick "S" init_state) == 0 /\
             pos i (tick "S" init_state) == pos i init_state) /\
  trail_points (tick "S" init_state) = trail_points init_state.
Proof.
  apply (rest_is_fixed "S" init_state).
  - reflexivity.
  - reflexivity.
  - reflexivity.
  - vm_compute. repeat split; discriminate.
Defined.

Lemma add_to_trail_inside : forall new_pos old_pos trail,
  in_arena old_pos -> Forall in_arena trail ->
  Forall in_arena (add_to_trail new_pos old_pos trail).
Proof.
  intros new_pos old_pos trail Hold Htrail. unfold add_to_trail.
  destruct (displaced new_pos old_pos); [| exact Htrail]. cbv zeta.
  assert (Happ : Forall in_arena (trail ++ [old_pos])).
  { apply Forall_app. split; [exact Htrail | now constructor]. }
  destruct (max_trail <? List.length (trail ++ [old_pos]))%nat;
    [| exact Happ].
  destruct (trail ++ [old_pos]) as [| p l]; [constructor |].
  now inversion Happ.
Qed.

(** X10. The trail only holds places the robot has been allowed to be:
    in every reachable state each trail point lies inside the arena. *)
Theorem trail_inside_arena : forall s,
  reachable s -> Forall in_arena (trail_points s).
Proof.
  induction 1 as [| cmd s Hs IH].
  - constructor.
  - rewrite trail_tick. apply add_to_trail_inside; [| exact IH].
    split.
    + exact (reachable_pos_within s Hs AxisX).
    + exact (reachable_pos_within s Hs AxisY).
Qed.

Lemma trail_inside_arena_witness :
  Forall in_arena (trail_points (run "R" 5 init_state)).
Proof.
  apply trail_inside_arena. apply reachable_run, reach_init.
Defined.

(** ** Drawing *)

Lemma py_int_floor : forall x, 0 <= x -> py_int x = Qfloor x.
Proof.
  intros [n d] H. unfold py_int, Qfloor. cbn [Qnum Qden].
  apply Z.quot_div_nonneg; [| reflexivity].
  unfold Qle in H. cbn in H. lia.
Qed.

Lemma py_int_range : forall x n,
  0 <= x <= inject_Z n -> (0 <= py_int x <= n)%Z.
Proof.
  intros x n [Hlo Hhi]. rewrite (py_int_floor x Hlo). split.
  - rewrite <- (Qfloor_Z 0). now apply Qfloor_resp_le.
  - rewrite <- (Qfloor_Z n). now apply Qfloor_resp_le.
Qed.

Lemma py_int_exact : forall x n, x == inject_Z n -> (0 <= n)%Z -> py_int x = n.
Proof.
  intros x n Hx Hn. rewrite py_int_floor.
  - rewrite Hx. apply Qfloor_Z.
  - rewrite Hx. change 0 with (inject_Z 0). now rewrite <- Zle_Qle.
Qed.

Lemma alpha_factor_range : forall i len,
  (i < len)%nat ->
  0 <= inject_Z (Z.of_nat i + 1) / inject_Z (Z.of_nat len) <= 1.
Proof.
  intros i len H.
  assert (Hlen : 0 < inject_Z (Z.of_nat len)).
  { change 0 with (inject_Z 0). rewrite <- Zlt_Qlt. lia. }
  split.
  - apply Qle_shift_div_l; [exact Hlen |]. rewrite Qmult_0_l.
    change 0 with (inject_Z 0). rewrite <- Zle_Qle. lia.
  - apply Qle_shift_div_r; [exact Hlen |]. rewrite Qmult_1_l.
    rewrite <- Zle_Qle. lia.
Qed.

(** X11. Every trail point is drawn with a legal radius and colour: for
    the [i]-th of [len] points ([i < len], so the division is defined)
    the radius is between 1 and 12 and the green component between 0
    and 100; the newest point gets radius 12 and green 100. *)
Theorem trail_dot_range : forall i len,
  (i < len)%nat ->
  (1 <= fst (trail_dot i len) <= 12)%Z /\
  (0 <= snd (trail_dot i len) <= 100)%Z /\
  trail_dot (len - 1) len = (12%Z, 100%Z).
Proof.
  intros i len H. pose proof (alpha_factor_range i len H) as Ha.
  unfold trail_dot. cbv zeta. cbn [fst snd].
  change (inject_Z ROBOT_SIZE) with 40.
  split; [| split].
  - revert Ha. generalize (inject_Z (Z.of_nat i + 1) / inject_Z (Z.of_nat len)).
    intros a Ha.
    assert (Hr : (0 <= py_int (40 * a * 0.3) <= 12)%Z).
    { apply py_int_range. change (inject_Z 12) with 12. lra. }
    lia.
  - apply py_int_range. change (inject_Z 100) with 100. lra.
  - assert (H1 : inject_Z (Z.of_nat (len - 1) + 1) / inject_Z (Z.of_nat len) == 1).
    { replace (Z.of_nat (len - 1) + 1)%Z with (Z.of_nat len) by lia.
      apply Qmult_inv_r. intros E. change 0 with (inject_Z 0) in E.
      apply (proj1 (inject_Z_injective _ _)) in E. lia. }
    rewrite (py_int_exact _ 12), (py_int_exact _ 100);
      try lia; try (rewrite H1; reflexivity).
    reflexivity.
Qed.

Lemma trail_dot_range_witness :
  (1 <= fst (trail_dot 0 150) <= 12)%Z /\
  (0 <= snd (trail_dot 0 150) <= 100)%Z /\
  trail_dot (150 - 1) 150 = (12%Z, 100%Z).
Proof.
  apply (trail_dot_range 0 150). lia.
Defined.

Lemma speed_ratio_range : forall m,
  0 <= m -> 0 <= py_min 1 (m / max_speed) <= 1.
Proof.
  intros m Hm.
  assert (H0 : 0 <= m / max_speed).
  { apply Qle_shift_div_l; [reflexivity |]. now rewrite Qmult_0_l. }
  unfold py_min. destruct (Qlt_le_dec (m / max_speed) 1); lra.
Qed.

(** X12. The robot is always painted with a legal colour: for any speed
    magnitude (a square root, hence not negative) the red and green
    components lie between 0 and 255 and blue is 50; at or above
    [max_speed] the colour is pure (255, 0, 50), at rest (0, 255, 50). *)
Theorem robot_color_range : forall m,
  0 <= m ->
  (0 <= fst (fst (robot_color m)) <= 255)%Z /\
  (0 <= snd (fst (robot_color m)) <= 255)%Z /\
  snd (robot_color m) = 50%Z /\
  (max_speed <= m -> robot_color m = (255, 0, 50)%Z) /\
  (m == 0 -> robot_color m = (0, 255, 50)%Z).
Proof.
  intros m Hm. pose proof (speed_ratio_range m Hm) as Hr.
  unfold robot_color. cbv zeta. cbn [fst snd].
  split; [| split; [| split; [| split]]].
  - apply py_int_range. change (inject_Z 255) with 255. lra.
  - apply py_int_range. change (inject_Z 255) with 255. lra.
  - reflexivity.
  - intros Hfast.
    assert (H1 : py_min 1 (m / max_speed) = 1).
    { unfold py_min. destruct (Qlt_le_dec (m / max_speed) 1) as [Hlt | _];
        [| reflexivity].
      exfalso. apply Qlt_not_le in Hlt. apply Hlt.
      apply Qle_shift_div_l; [reflexivity |]. now rewrite Qmult_1_l. }
    rewrite H1. reflexivity.
  - intros Hz.
    assert (H0 : py_min 1 (m / max_speed) == 0).
    { unfold py_min. destruct (Qlt_le_dec (m / max_speed) 1) as [_ | Hge].
      - rewrite Hz. reflexivity.
      - exfalso. rewrite Hz in Hge. revert Hge. vm_compute. auto. }
    rewrite (py_int_exact _ 0), (py_int_exact _ 255);
      try lia; try (rewrite H0; reflexivity).
    reflexivity.
Qed.

Lemma robot_color_range_witness :
  (0 <= fst (fst (robot_color 5)) <= 255)%Z /\
  (0 <= snd (fst (robot_color 5)) <= 255)%Z /\
  snd (robot_color 5) = 50%Z /\
  (max_speed <= 5 -> robot_color 5 = (255, 0, 50)%Z) /\
  (5 == 0 -> robot_color 5 = (0, 255, 50)%Z).
Proof.
  apply (robot_color_range 5). discriminate.
Defined.

(** X13. The robot is always drawn entirely inside the window: in every
    reachable state its rectangle has a non-negative left and top and
    ends at or before [WIDTH] and [HEIGHT]. *)
Theorem robot_rect_in_window : forall s,
  reachable s ->
  let '(x0, y0, width, height) := robot_rect s in
  (0 <= x0 /\ x0 + width <= WIDTH)%Z /\
  (0 <= y0 /\ y0 + height <= HEIGHT)%Z.
Proof.
  intros s Hs. unfold robot_rect.
  pose proof (reachable_pos_within s Hs AxisX) as [Hx1 Hx2].
  pose proof (reachable_pos_within s Hs AxisY) as [Hy1 Hy2].
  unfold pos, coord in *. rewrite edge_lo_val, edge_hi_val in *.
  change (inject_Z (ROBOT_SIZE / 2)) with 20.
  assert (Hl : (0 <= py_int (fst (robot_pos s) - 20) <= 760)%Z).
  { apply py_int_range. change (inject_Z 760) with 760. lra. }
  assert (Ht : (0 <= py_int (snd (robot_pos s) - 20) <= 560)%Z).
  { apply py_int_range. change (inject_Z 560) with 560. lra. }
  unfold ROBOT_SIZE, WIDTH, HEIGHT. lia.
Qed.

Lemma robot_rect_in_window_witness :
  let '(x0, y0, width, height) := robot_rect (run "B" 80 init_state) in
  (0 <= x0 /\ x0 + width <= WIDTH)%Z /\
  (0 <= y0 /\ y0 + height <= HEIGHT)%Z.
Proof.
  apply (robot_rect_in_window (run "B" 80 init_state)).
  apply reachable_run, reach_init.
Defined.

(** ** Leaving the loop *)

(** X14. Only a [QUIT] event stops the loop: a pass whose inputs hold no
    [QUIT] leaves [running] as it was, so no key press (Escape, code 27,
    included) and no request ends the simulation. *)
Theorem only_quit_stops : forall inputs st,
  existsb is_quit inputs = false ->
  running (frame inputs st) = running st.
Proof.
  intros inputs st H. unfold frame. cbn [running].
  rewrite apply_inputs_running. cbn [fst]. rewrite H. apply andb_true_r.
Qed.

Lemma only_quit_stops_witness :
  running (frame [Event (KEYDOWN 27); Request [("cmd", "quit")%string];
                  Event OTHER] init_loop)
  = running init_loop.
Proof.
  apply only_quit_stops. reflexivity.
Defined.
